(** * BloomFilter (src/main.js): a shallow embedding and its properties

    The class [BloomFilter] of src/main.js is embedded with

    - JavaScript Numbers that hold integers as [Z]: the arguments [size]
      and [numHashes] are taken to be integers, every intermediate value of
      [_hash] stays below 2^53 in magnitude, where the arithmetic of doubles
      is exact (see [hash_step_exact]), and so does the loop counter as long
      as [numHashes] does; the only non-integer Number the program can then
      produce is NaN, from [hash % 0];
    - the 32-bit operators [<<], [&] and [^] through [ToInt32], with the
      wrap-around written out;
    - a string as the list of its UTF-16 code units (what [charCodeAt]
      returns);
    - the Array [bitArray] as a JavaScript object: a [length] and a finite map
      from property keys to values, so that a write outside the array, or at
      the key NaN, does what the language does;
    - [console.log] as an output trace, and the methods as computations of a
      small state monad over the filter object and that trace. *)

From Stdlib Require Import ZArith List Lia String Ascii.
From stdpp Require Import base option list gmap.

Local Open Scope Z_scope.

(** ** Numbers *)

(** The Numbers that [_hash] returns and that index [bitArray]. *)
Inductive jsnum : Type :=
  | Num (z : Z)
  | NaN.

#[global] Instance jsnum_eq_dec : EqDecision jsnum.
Proof. solve_decision. Defined.

Definition jsnum_to_option (n : jsnum) : option Z :=
  match n with Num z => Some z | NaN => None end.

Definition jsnum_of_option (o : option Z) : jsnum :=
  match o with Some z => Num z | None => NaN end.

#[global] Instance jsnum_countable : Countable jsnum.
Proof.
  apply (inj_countable' jsnum_to_option jsnum_of_option).
  intros []; reflexivity.
Defined.

(** ToInt32 of an integer Number: reduction modulo 2^32 into
    [-2^31, 2^31). *)
Definition ToInt32 (z : Z) : Z := (z + 2 ^ 31) mod 2 ^ 32 - 2 ^ 31.

(** ToUint32, used for the shift count. *)
Definition ToUint32 (z : Z) : Z := z mod 2 ^ 32.

Definition is_int32 (z : Z) : Prop := - 2 ^ 31 <= z < 2 ^ 31.

(** [a << b] *)
Definition js_shl (a b : Z) : Z :=
  ToInt32 (Z.shiftl (ToInt32 a) (Z.land (ToUint32 b) 31)).

(** [a & b] *)
Definition js_and (a b : Z) : Z := ToInt32 (Z.land (ToInt32 a) (ToInt32 b)).

(** [a ^ b] *)
Definition js_xor (a b : Z) : Z := ToInt32 (Z.lxor (ToInt32 a) (ToInt32 b)).

(** [a % b] on integers: the remainder has the sign of the dividend, and a
    zero divisor gives NaN. (The zero results +0 and -0 are both [Num 0]; the
    program passes the result to [Math.abs], which maps both to +0.) *)
Definition js_rem (a b : Z) : jsnum :=
  if b =? 0 then NaN else Num (Z.rem a b).

(** [Math.abs] *)
Definition Math_abs (n : jsnum) : jsnum :=
  match n with
  | Num z => Num (Z.abs z)
  | NaN => NaN
  end.

(** ** Strings *)

(** A string is the sequence of its UTF-16 code units; [charCodeAt] returns
    the unit, a number in [0, 65535]. *)
Definition jsstring : Type := list N.

Definition charCode (c : N) : Z := Z.of_N c.

Definition valid_string (s : jsstring) : Prop :=
  Forall (fun c => charCode c < 65536) s.

(** A string literal of ASCII characters as a [jsstring]. *)
Definition js (s : string) : jsstring :=
  List.map N_of_ascii (list_ascii_of_string s).

(** ** The hash *)

(** One round of the loop of [_hash] (lines 26 to 28). *)
Definition hash_step (hash : Z) (char : N) : Z :=
  let hash := js_shl hash 5 - hash + charCode char in
  js_and hash hash.

(** The loop of [_hash] (lines 24 to 29). *)
Definition running_hash (item : jsstring) : Z :=
  fold_left hash_step item 0.

(** The value [_hash] returns, as a function of [this.size], the item and
    the seed (lines 24 to 32). *)
Definition hash_index (size : Z) (item : jsstring) (seed : Z) : jsnum :=
  let hash := running_hash item in
  let hash := js_xor hash seed in
  Math_abs (js_rem hash size).

(** The running hash as the specification words it: [hash * 31 + codepoint],
    wrapped to a signed 32-bit integer at every step. *)
Definition spec_hash_step (hash : Z) (codepoint : N) : Z :=
  ToInt32 (hash * 31 + charCode codepoint).

Definition spec_running_hash (item : jsstring) : Z :=
  fold_left spec_hash_step item 0.

(** ** Arrays *)

(** An Array object: its [length] and its own properties. A key is the
    Number used to index ([a[5]] and [a[NaN]] are the properties named by the
    canonical strings of 5 and NaN); a key that is absent reads as
    [undefined]. *)
Record JsArray : Type := {
  arr_length : Z;
  props : gmap jsnum Z
}.

Inductive error : Type :=
  | RangeError (message : string).

Inductive result (A : Type) : Type :=
  | Ok (a : A)
  | Throw (e : error).

Arguments Ok {A} a.
Arguments Throw {A} e.

(** [new Array(len)] for an integer [len]: an array of [len] holes, or a
    RangeError when [len] is not in [0, 2^32 - 1]. *)
Definition new_Array (len : Z) : result JsArray :=
  if (0 <=? len) && (len <? 2 ^ 32)
  then Ok {| arr_length := len; props := ∅ |}
  else Throw (RangeError "Invalid array length").

Fixpoint fill_upto (n : nat) (v : Z) (m : gmap jsnum Z) : gmap jsnum Z :=
  match n with
  | O => m
  | S n' => <[Num (Z.of_nat n') := v]> (fill_upto n' v m)
  end.

(** [a.fill(v)]: every index below [length] is set to [v]. An engine can
    also fail here for lack of memory when the array is large; that failure is
    not modelled, so that a filter of the model is the filter the program
    gets whenever it gets one. *)
Definition Array_fill (a : JsArray) (v : Z) : JsArray :=
  {| arr_length := arr_length a;
     props := fill_upto (Z.to_nat (arr_length a)) v (props a) |}.

(** The keys that are array indices: the integers in [0, 2^32 - 2]. *)
Definition is_array_index (i : Z) : bool := (0 <=? i) && (i <? 2 ^ 32 - 1).

(** [a[key] = v]: the property is created or overwritten, and a write at an
    array index at or beyond [length] extends the array. *)
Definition array_set (a : JsArray) (key : jsnum) (v : Z) : JsArray :=
  {| arr_length :=
       match key with
       | Num i => if is_array_index i then Z.max (arr_length a) (i + 1)
                  else arr_length a
       | NaN => arr_length a
       end;
     props := <[key := v]> (props a) |}.

(** [a[key]]: [None] is [undefined]. *)
Definition array_get (a : JsArray) (key : jsnum) : option Z := props a !! key.

(** ** The filter object *)

Record BloomFilter : Type := {
  size : Z;
  numHashes : Z;
  bitArray : JsArray
}.

(** [constructor(size, numHashes)] (lines 8 to 12). Nothing is checked; the
    only failure modelled is the one of [new Array(size)] on a length that is
    not an array length. *)
Definition constructor (size numHashes : Z) : result BloomFilter :=
  match new_Array size with
  | Throw e => Throw e
  | Ok a =>
      Ok {| size := size; numHashes := numHashes; bitArray := Array_fill a 0 |}
  end.

(** ** The methods, as computations over the object and the console *)

Record World : Type := {
  this : BloomFilter;
  console : list jsnum
}.

Definition M (A : Type) : Type := World -> A * World.

Definition ret {A : Type} (a : A) : M A := fun w => (a, w).

Definition bind {A B : Type} (m : M A) (k : A -> M B) : M B :=
  fun w => let (a, w') := m w in k a w'.

Notation "x <- m ;; k" := (bind m (fun x => k))
  (at level 100, m at next level, right associativity).

Definition get_size : M Z := fun w => (size (this w), w).

Definition get_numHashes : M Z := fun w => (numHashes (this w), w).

Definition bitArray_get (index : jsnum) : M (option Z) :=
  fun w => (array_get (bitArray (this w)) index, w).

Definition bitArray_set (index : jsnum) (v : Z) : M unit :=
  fun w =>
    (tt, {| this := {| size := size (this w);
                       numHashes := numHashes (this w);
                       bitArray := array_set (bitArray (this w)) index v |};
            console := console w |}).

Definition console_log (v : jsnum) : M unit :=
  fun w => (tt, {| this := this w; console := console w ++ [v] |}).

(** [_hash(item, seed)] (lines 23 to 35). *)
Definition _hash (item : jsstring) (seed : Z) : M jsnum :=
  let hash := running_hash item in
  let hash := js_xor hash seed in
  size <- get_size ;;
  let res := Math_abs (js_rem hash size) in
  _ <- console_log res ;;
  ret res.

(** The loop of [add] (lines 43 to 46) from the counter [i]: the condition
    [i < this.numHashes] is read at every round; [fuel] bounds the number of
    rounds, and [add] gives it the number the condition allows. *)
Fixpoint add_loop (item : jsstring) (i : Z) (fuel : nat) : M unit :=
  match fuel with
  | O => ret tt
  | S fuel' =>
      k <- get_numHashes ;;
      if i <? k then
        index <- _hash item i ;;
        _ <- bitArray_set index 1 ;;
        add_loop item (i + 1) fuel'
      else ret tt
  end.

(** [add(item)] (lines 42 to 47). *)
Definition add (item : jsstring) : M unit :=
  k <- get_numHashes ;;
  add_loop item 0 (Z.to_nat k).

(** The world after one round of the loop of [add]. *)
Definition add_round (item : jsstring) (i : Z) (w : World) : World :=
  snd (bitArray_set (fst (_hash item i w)) 1 (snd (_hash item i w))).

(** The loop of [contains] (lines 57 to 62), with its early return; falling
    out of the loop returns [true] (line 64). [bit === 0] holds only of the
    Number 0, not of [undefined]. *)
Fixpoint contains_loop (item : jsstring) (i : Z) (fuel : nat) : M bool :=
  match fuel with
  | O => ret true
  | S fuel' =>
      k <- get_numHashes ;;
      if i <? k then
        index <- _hash item i ;;
        bit <- bitArray_get index ;;
        if decide (bit = Some 0) then ret false
        else contains_loop item (i + 1) fuel'
      else ret true
  end.

(** [contains(item)] (lines 56 to 65). *)
Definition contains (item : jsstring) : M bool :=
  k <- get_numHashes ;;
  contains_loop item 0 (Z.to_nat k).

(** ** Sequences of calls *)

Inductive call : Type :=
  | Add (item : jsstring)
  | Contains (item : jsstring).

(** One call on the filter; the value is what the method returns
    ([None] for the [undefined] of [add]). *)
Definition exec (c : call) : M (option bool) :=
  match c with
  | Add item => _ <- add item ;; ret None
  | Contains item => b <- contains item ;; ret (Some b)
  end.

(** The world after a sequence of calls, made in order. *)
Definition run (cs : list call) (w : World) : World :=
  fold_left (fun w c => snd (exec c w)) cs w.

(** The world in which [f] has just been constructed, the console holding
    [out]. *)
Definition fresh (f : BloomFilter) (out : list jsnum) : World :=
  {| this := f; console := out |}.

(** The values the loop counter takes in [fuel] rounds from [i]. *)
Fixpoint seeds_from (i : Z) (fuel : nat) : list Z :=
  match fuel with
  | O => []
  | S fuel' => i :: seeds_from (i + 1) fuel'
  end.

(** The seeds of a filter with [k] hash functions: 0, ..., k - 1. *)
Definition seeds (k : Z) : list Z := seeds_from 0 (Z.to_nat k).

(** The indices [add] and [contains] derive from an item. *)
Definition indices (f : BloomFilter) (item : jsstring) : list jsnum :=
  List.map (hash_index (size f) item) (seeds (numHashes f)).

(** The writes [a[key] = 1], for the keys in order. *)
Definition set_bits (keys : list jsnum) (a : JsArray) : JsArray :=
  fold_left (fun a key => array_set a key 1) keys a.

Definition with_bitArray (f : BloomFilter) (a : JsArray) : BloomFilter :=
  {| size := size f; numHashes := numHashes f; bitArray := a |}.

(** What a sequence of calls keeps true of a constructed filter: [size] is
    the length of the array, and the array never grows. *)
Definition in_bounds (f : BloomFilter) : Prop :=
  0 <= size f /\ arr_length (bitArray f) = size f.

(** Every slot holds the Number 0 or the Number 1. *)
Definition bits_only (a : JsArray) : Prop :=
  forall key v, array_get a key = Some v -> v = 0 \/ v = 1.

(** The polynomial of the code units in 31, by Horner's rule and without
    any wrap-around. *)
Definition poly_hash (item : jsstring) : Z :=
  fold_left (fun h c => h * 31 + charCode c) item 0.

(** The keys that the calls of [add] in a sequence of calls write, in the
    order of the writes, on a filter with the size and the number of hash
    functions of [f]. *)
Fixpoint written (f : BloomFilter) (cs : list call) : list jsnum :=
  match cs with
  | [] => []
  | Add item :: cs' => indices f item ++ written f cs'
  | Contains _ :: cs' => written f cs'
  end.

(** ** The 32-bit arithmetic *)

Lemma ToInt32_range (z : Z) : is_int32 (ToInt32 z).
Proof.
  unfold is_int32, ToInt32.
  pose proof (Z.mod_pos_bound (z + 2 ^ 31) (2 ^ 32) ltac:(lia)). lia.
Qed.

Lemma ToInt32_id (z : Z) : is_int32 z -> ToInt32 z = z.
Proof.
  unfold is_int32, ToInt32. intros Hz.
  rewrite Z.mod_small by lia. lia.
Qed.

Lemma ToInt32_idem (z : Z) : ToInt32 (ToInt32 z) = ToInt32 z.
Proof. apply ToInt32_id, ToInt32_range. Qed.

(** [ToInt32 z] differs from [z] by a multiple of 2^32. *)
Lemma ToInt32_wraps (z : Z) : exists q, ToInt32 z = z + q * 2 ^ 32.
Proof.
  exists (- ((z + 2 ^ 31) / 2 ^ 32)). unfold ToInt32.
  pose proof (Z.div_mod (z + 2 ^ 31) (2 ^ 32) ltac:(lia)). lia.
Qed.

Lemma ToInt32_congr (x y q : Z) : x = y + q * 2 ^ 32 -> ToInt32 x = ToInt32 y.
Proof.
  intros ->. unfold ToInt32.
  replace (y + q * 2 ^ 32 + 2 ^ 31) with (y + 2 ^ 31 + q * 2 ^ 32) by lia.
  now rewrite Z_mod_plus_full.
Qed.

Lemma js_shl_5 (a : Z) : js_shl a 5 = ToInt32 (ToInt32 a * 32).
Proof.
  unfold js_shl.
  change (Z.land (ToUint32 5) 31) with 5.
  now rewrite Z.shiftl_mul_pow2 by lia.
Qed.

Lemma js_and_diag (a : Z) : js_and a a = ToInt32 a.
Proof. unfold js_and. rewrite Z.land_diag. apply ToInt32_idem. Qed.

Lemma js_xor_range (a b : Z) : is_int32 (js_xor a b).
Proof. apply ToInt32_range. Qed.

(** One round of the loop is the multiply-by-31 update of the
    specification, whatever the accumulator. *)
Lemma hash_step_spec (h : Z) (c : N) : hash_step h c = spec_hash_step h c.
Proof.
  unfold hash_step, spec_hash_step.
  rewrite js_and_diag, js_shl_5.
  destruct (ToInt32_wraps h) as [q1 Hq1].
  destruct (ToInt32_wraps (ToInt32 h * 32)) as [q2 Hq2].
  apply (ToInt32_congr _ _ (q2 + 32 * q1)). lia.
Qed.

Lemma hash_step_range (h : Z) (c : N) : is_int32 (hash_step h c).
Proof. unfold hash_step. rewrite js_and_diag. apply ToInt32_range. Qed.

(** The value [(hash << 5) - hash + char] is an integer below 2^53 in
    magnitude, where the arithmetic of doubles is exact. *)
Lemma hash_step_exact (h : Z) (c : N) :
  is_int32 h -> charCode c < 65536 ->
  - 2 ^ 53 < js_shl h 5 - h + charCode c < 2 ^ 53.
Proof.
  intros Hh Hc. rewrite js_shl_5.
  pose proof (ToInt32_range (ToInt32 h * 32)) as Hs.
  unfold is_int32, charCode in *. lia.
Qed.

Lemma fold_left_step {A B : Type} (f : A -> B -> A) (x : B) (l : list B) (a : A) :
  fold_left f (x :: l) a = fold_left f l (f a x).
Proof. reflexivity. Qed.

Lemma fold_left_done {A B : Type} (f : A -> B -> A) (a : A) :
  fold_left f [] a = a.
Proof. reflexivity. Qed.

Lemma fold_hash_step_spec (item : jsstring) (h : Z) :
  fold_left hash_step item h = fold_left spec_hash_step item h.
Proof.
  revert h. induction item as [|c item IH]; intros h.
  - reflexivity.
  - rewrite !fold_left_step, hash_step_spec. apply IH.
Qed.

Lemma fold_hash_step_range (item : jsstring) (h : Z) :
  is_int32 h -> is_int32 (fold_left hash_step item h).
Proof.
  revert h. induction item as [|c item IH]; intros h Hh.
  - exact Hh.
  - rewrite fold_left_step. apply IH, hash_step_range.
Qed.

Lemma running_hash_range (item : jsstring) : is_int32 (running_hash item).
Proof. apply fold_hash_step_range. unfold is_int32. lia. Qed.

(** On a string of code units, every round of the loop computes on exact
    values. *)
Lemma running_hash_exact (pre post : jsstring) (c : N) :
  valid_string (pre ++ c :: post) ->
  - 2 ^ 53 <
  js_shl (running_hash pre) 5 - running_hash pre + charCode c
  < 2 ^ 53.
Proof.
  intros Hvalid. apply hash_step_exact; [apply running_hash_range|].
  unfold valid_string in Hvalid. rewrite List.Forall_forall in Hvalid.
  apply Hvalid. apply in_or_app. right. now left.
Qed.

(** ** The index *)

Lemma hash_index_bound (size : Z) (item : jsstring) (seed : Z) :
  0 < size ->
  exists i, hash_index size item seed = Num i /\ 0 <= i < size.
Proof.
  intros Hsize. unfold hash_index, js_rem.
  destruct (Z.eqb_spec size 0) as [->|Hne]; [lia|].
  eexists. split; [reflexivity|].
  pose proof (Z.rem_bound_abs (js_xor (running_hash item) seed) size Hne).
  lia.
Qed.

Lemma hash_index_zero_size (item : jsstring) (seed : Z) :
  hash_index 0 item seed = NaN.
Proof. reflexivity. Qed.

(** ** Array reads and writes *)

Lemma array_get_set_eq (a : JsArray) (key : jsnum) (v : Z) :
  array_get (array_set a key v) key = Some v.
Proof. unfold array_get, array_set; simpl. apply lookup_insert_eq. Qed.

Lemma array_get_set_ne (a : JsArray) (key key' : jsnum) (v : Z) :
  key <> key' -> array_get (array_set a key v) key' = array_get a key'.
Proof. intros Hne. unfold array_get, array_set; simpl. now apply lookup_insert_ne. Qed.

Lemma array_set_idem (a : JsArray) (key : jsnum) (v : Z) :
  array_set (array_set a key v) key v = array_set a key v.
Proof.
  unfold array_set; simpl. f_equal.
  - destruct key as [i|]; [|reflexivity]. destruct (is_array_index i); lia.
  - apply insert_insert_eq.
Qed.

Lemma array_set_comm (a : JsArray) (k1 k2 : jsnum) (v : Z) :
  array_set (array_set a k1 v) k2 v = array_set (array_set a k2 v) k1 v.
Proof.
  destruct (decide (k1 = k2)) as [->|Hne]; [reflexivity|].
  unfold array_set; simpl. f_equal.
  - destruct k1 as [i1|], k2 as [i2|]; try reflexivity.
    destruct (is_array_index i1), (is_array_index i2); lia.
  - apply insert_insert_ne. congruence.
Qed.

Lemma fill_upto_lookup (n : nat) (v : Z) (m : gmap jsnum Z) (i : Z) :
  0 <= i < Z.of_nat n -> fill_upto n v m !! Num i = Some v.
Proof.
  induction n as [|n IH]; intros Hi; simpl.
  - lia.
  - destruct (decide (i = Z.of_nat n)) as [->|Hne].
    + apply lookup_insert_eq.
    + rewrite lookup_insert_ne by congruence. apply IH. lia.
Qed.

Lemma fill_upto_values (n : nat) (v : Z) (m : gmap jsnum Z) (key : jsnum) (x : Z) :
  fill_upto n v m !! key = Some x -> x = v \/ m !! key = Some x.
Proof.
  induction n as [|n IH]; simpl; intros Hx.
  - now right.
  - destruct (decide (Num (Z.of_nat n) = key)) as [<-|Hne].
    + rewrite lookup_insert_eq in Hx. left. congruence.
    + rewrite lookup_insert_ne in Hx by exact Hne. now apply IH.
Qed.

(** ** The writes of [add], as a function of the array *)

Lemma set_bits_cons (key : jsnum) (keys : list jsnum) (a : JsArray) :
  set_bits (key :: keys) a = set_bits keys (array_set a key 1).
Proof. reflexivity. Qed.

Lemma set_bits_set (keys : list jsnum) (a : JsArray) (key : jsnum) :
  set_bits keys (array_set a key 1) = array_set (set_bits keys a) key 1.
Proof.
  revert a. induction keys as [|k keys IH]; intros a.
  - reflexivity.
  - rewrite !set_bits_cons, <- IH. f_equal. apply array_set_comm.
Qed.

Lemma set_bits_comm (xs ys : list jsnum) (a : JsArray) :
  set_bits ys (set_bits xs a) = set_bits xs (set_bits ys a).
Proof.
  revert a. induction xs as [|x xs IH]; intros a.
  - reflexivity.
  - rewrite !set_bits_cons, IH. f_equal. apply set_bits_set.
Qed.

Lemma set_bits_idem (keys : list jsnum) (a : JsArray) :
  set_bits keys (set_bits keys a) = set_bits keys a.
Proof.
  revert a. induction keys as [|k keys IH]; intros a.
  - reflexivity.
  - rewrite !set_bits_cons, set_bits_set, IH, <- set_bits_set.
    now rewrite array_set_idem.
Qed.

Lemma set_bits_written (keys : list jsnum) (a : JsArray) (key : jsnum) :
  In key keys -> array_get (set_bits keys a) key = Some 1.
Proof.
  revert a. induction keys as [|k keys IH]; intros a Hin.
  - destruct Hin.
  - rewrite set_bits_cons. destruct Hin as [->|Hin].
    + rewrite set_bits_set. apply array_get_set_eq.
    + now apply IH.
Qed.

Lemma set_bits_other (keys : list jsnum) (a : JsArray) (key : jsnum) :
  ~ In key keys -> array_get (set_bits keys a) key = array_get a key.
Proof.
  revert a. induction keys as [|k keys IH]; intros a Hnin.
  - reflexivity.
  - rewrite set_bits_cons, IH by (intros Hin; apply Hnin; now right).
    apply array_get_set_ne. intros ->. apply Hnin. now left.
Qed.

(** A slot read after the writes holds 1, or what it held before. *)
Lemma set_bits_get (keys : list jsnum) (a : JsArray) (key : jsnum) :
  array_get (set_bits keys a) key = Some 1 \/
  array_get (set_bits keys a) key = array_get a key.
Proof.
  destruct (in_dec jsnum_eq_dec key keys) as [Hin|Hnin].
  - left. now apply set_bits_written.
  - right. now apply set_bits_other.
Qed.

Lemma set_bits_keeps_one (keys : list jsnum) (a : JsArray) (key : jsnum) :
  array_get a key = Some 1 -> array_get (set_bits keys a) key = Some 1.
Proof. intros H1. destruct (set_bits_get keys a key) as [H|H]; congruence. Qed.

Lemma set_bits_length (keys : list jsnum) (a : JsArray) :
  (forall key, In key keys -> exists i, key = Num i /\ 0 <= i < arr_length a) ->
  arr_length (set_bits keys a) = arr_length a.
Proof.
  revert a. induction keys as [|k keys IH]; intros a Hkeys.
  - reflexivity.
  - destruct (Hkeys k (or_introl eq_refl)) as (i & -> & Hi).
    assert (Hlen : arr_length (array_set a (Num i) 1) = arr_length a).
    { simpl. destruct (is_array_index i); lia. }
    rewrite set_bits_cons, IH; [exact Hlen|].
    intros key Hin. rewrite Hlen. apply Hkeys. now right.
Qed.

Lemma set_bits_length_NaN (keys : list jsnum) (a : JsArray) :
  (forall key, In key keys -> key = NaN) ->
  arr_length (set_bits keys a) = arr_length a.
Proof.
  revert a. induction keys as [|k keys IH]; intros a Hkeys.
  - reflexivity.
  - rewrite set_bits_cons, IH by (intros key Hin; apply Hkeys; now right).
    now rewrite (Hkeys k (or_introl eq_refl)).
Qed.

Lemma in_seeds_from (s i : Z) (fuel : nat) :
  In s (seeds_from i fuel) <-> i <= s < i + Z.of_nat fuel.
Proof.
  revert i. induction fuel as [|fuel IH]; intros i; simpl.
  - lia.
  - rewrite IH. lia.
Qed.

Lemma in_seeds (s k : Z) : In s (seeds k) <-> 0 <= s < k.
Proof. unfold seeds. rewrite in_seeds_from. lia. Qed.

Lemma in_indices (f : BloomFilter) (item : jsstring) (key : jsnum) :
  In key (indices f item) <->
  exists seed, 0 <= seed < numHashes f /\ hash_index (size f) item seed = key.
Proof.
  unfold indices. rewrite in_map_iff. split.
  - intros (s & Hs & Hin). exists s. now rewrite <- in_seeds.
  - intros (s & Hin & Hs). exists s. now rewrite in_seeds.
Qed.

(** ** The methods *)

Lemma _hash_run (item : jsstring) (seed : Z) (w : World) :
  _hash item seed w =
  (hash_index (size (this w)) item seed,
   {| this := this w;
      console := console w ++ [hash_index (size (this w)) item seed] |}).
Proof. reflexivity. Qed.

Lemma with_bitArray_same (f : BloomFilter) : with_bitArray f (bitArray f) = f.
Proof. now destruct f. Qed.

Lemma add_loop_S (item : jsstring) (i : Z) (fuel : nat) (w : World) :
  add_loop item i (S fuel) w =
  if i <? numHashes (this w)
  then add_loop item (i + 1) fuel (add_round item i w)
  else (tt, w).
Proof.
  simpl. unfold bind, get_numHashes.
  destruct (i <? numHashes (this w)); reflexivity.
Qed.

Lemma add_round_this (item : jsstring) (i : Z) (w : World) :
  this (add_round item i w) =
  with_bitArray (this w)
    (array_set (bitArray (this w)) (hash_index (size (this w)) item i) 1).
Proof. reflexivity. Qed.

(** The loop of [add] performs the writes of [set_bits], for the seeds the
    condition lets through, and nothing else on the object. *)
Lemma add_loop_this (item : jsstring) (fuel : nat) (i : Z) (w : World) :
  fuel = Z.to_nat (numHashes (this w) - i) ->
  this (snd (add_loop item i fuel w)) =
  with_bitArray (this w)
    (set_bits (List.map (hash_index (size (this w)) item) (seeds_from i fuel))
       (bitArray (this w))).
Proof.
  revert i w. induction fuel as [|fuel IH]; intros i w Hfuel.
  - simpl. symmetry. apply with_bitArray_same.
  - rewrite add_loop_S.
    destruct (Z.ltb_spec i (numHashes (this w))) as [Hlt|Hge]; [|lia].
    rewrite IH by (rewrite add_round_this; simpl; lia).
    rewrite add_round_this. reflexivity.
Qed.

(** The loop leaves by its condition: fuel beyond what [add] gives changes
    nothing. *)
Lemma add_loop_fuel (item : jsstring) (fuel extra : nat) (i : Z) (w : World) :
  fuel = Z.to_nat (numHashes (this w) - i) ->
  add_loop item i (fuel + extra) w = add_loop item i fuel w.
Proof.
  revert i w. induction fuel as [|fuel IH]; intros i w Hfuel.
  - destruct extra as [|extra]; [reflexivity|].
    simpl Nat.add. rewrite add_loop_S.
    destruct (Z.ltb_spec i (numHashes (this w))) as [Hlt|Hge]; [lia|reflexivity].
  - simpl Nat.add. rewrite !add_loop_S.
    destruct (Z.ltb_spec i (numHashes (this w))) as [Hlt|Hge]; [|reflexivity].
    apply IH. rewrite add_round_this; simpl; lia.
Qed.

Lemma add_this (item : jsstring) (w : World) :
  this (snd (add item w)) =
  with_bitArray (this w) (set_bits (indices (this w) item) (bitArray (this w))).
Proof.
  unfold add, bind, get_numHashes.
  rewrite add_loop_this by (f_equal; lia). reflexivity.
Qed.

Lemma add_size (item : jsstring) (w : World) :
  size (this (snd (add item w))) = size (this w).
Proof. now rewrite add_this. Qed.

Lemma add_numHashes (item : jsstring) (w : World) :
  numHashes (this (snd (add item w))) = numHashes (this w).
Proof. now rewrite add_this. Qed.

Lemma add_bitArray (item : jsstring) (w : World) :
  bitArray (this (snd (add item w))) =
  set_bits (indices (this w) item) (bitArray (this w)).
Proof. now rewrite add_this. Qed.

Lemma contains_loop_S (item : jsstring) (i : Z) (fuel : nat) (w : World) :
  contains_loop item i (S fuel) w =
  if i <? numHashes (this w) then
    if decide (array_get (bitArray (this w)) (hash_index (size (this w)) item i)
               = Some 0)
    then (false, snd (_hash item i w))
    else contains_loop item (i + 1) fuel (snd (_hash item i w))
  else (true, w).
Proof.
  simpl. unfold bind, get_numHashes, bitArray_get.
  destruct (i <? numHashes (this w)); [|reflexivity].
  rewrite _hash_run; simpl.
  destruct (decide _); reflexivity.
Qed.

(** [contains] writes nothing on the object. *)
Lemma contains_loop_this (item : jsstring) (fuel : nat) (i : Z) (w : World) :
  this (snd (contains_loop item i fuel w)) = this w.
Proof.
  revert i w. induction fuel as [|fuel IH]; intros i w.
  - reflexivity.
  - rewrite contains_loop_S.
    destruct (i <? numHashes (this w)); [|reflexivity].
    destruct (decide _); [reflexivity|].
    rewrite IH. reflexivity.
Qed.

Lemma contains_this (item : jsstring) (w : World) :
  this (snd (contains item w)) = this w.
Proof. unfold contains, bind, get_numHashes. apply contains_loop_this. Qed.

(** The loop of [contains] answers [true] exactly when no slot it reads
    holds the Number 0. *)
Lemma contains_loop_true (item : jsstring) (fuel : nat) (i : Z) (w : World) :
  fuel = Z.to_nat (numHashes (this w) - i) ->
  fst (contains_loop item i fuel w) = true <->
  forall seed, In seed (seeds_from i fuel) ->
    array_get (bitArray (this w)) (hash_index (size (this w)) item seed)
    <> Some 0.
Proof.
  revert i w. induction fuel as [|fuel IH]; intros i w Hfuel.
  - simpl. split; [intros _ seed []|reflexivity].
  - rewrite contains_loop_S.
    destruct (Z.ltb_spec i (numHashes (this w))) as [Hlt|Hge]; [|lia].
    destruct (decide _) as [Hzero|Hnz]; simpl.
    + split; [discriminate|]. intros Hall. destruct (Hall i); [now left|exact Hzero].
    + rewrite IH by (simpl; lia). simpl. split.
      * intros Hall seed [<-|Hin]; [exact Hnz|now apply Hall].
      * intros Hall seed Hin. apply Hall. now right.
Qed.

Lemma contains_loop_fuel (item : jsstring) (fuel extra : nat) (i : Z) (w : World) :
  fuel = Z.to_nat (numHashes (this w) - i) ->
  contains_loop item i (fuel + extra) w = contains_loop item i fuel w.
Proof.
  revert i w. induction fuel as [|fuel IH]; intros i w Hfuel.
  - destruct extra as [|extra]; [reflexivity|].
    simpl Nat.add. rewrite contains_loop_S.
    destruct (Z.ltb_spec i (numHashes (this w))) as [Hlt|Hge]; [lia|reflexivity].
  - simpl Nat.add. rewrite !contains_loop_S.
    destruct (Z.ltb_spec i (numHashes (this w))) as [Hlt|Hge]; [|reflexivity].
    destruct (decide _); [reflexivity|].
    apply IH. simpl; lia.
Qed.

Lemma contains_true (item : jsstring) (w : World) :
  fst (contains item w) = true <->
  forall key, In key (indices (this w) item) ->
    array_get (bitArray (this w)) key <> Some 0.
Proof.
  unfold contains, bind, get_numHashes.
  rewrite contains_loop_true by (f_equal; lia).
  unfold indices, seeds. split.
  - intros Hall key Hin. apply in_map_iff in Hin as (seed & <- & Hin). now apply Hall.
  - intros Hall seed Hin. apply Hall. now apply in_map.
Qed.

(** ** Sequences of calls *)

Lemma exec_this (c : call) (w : World) :
  this (snd (exec c w)) =
  match c with
  | Add item => this (snd (add item w))
  | Contains _ => this w
  end.
Proof.
  destruct c as [item|item]; unfold exec, bind, ret.
  - now destruct (add item w).
  - rewrite <- (contains_this item w). now destruct (contains item w).
Qed.

Lemma run_cons (c : call) (cs : list call) (w : World) :
  run (c :: cs) w = run cs (snd (exec c w)).
Proof. reflexivity. Qed.

Lemma run_app (cs1 cs2 : list call) (w : World) :
  run (cs1 ++ cs2) w = run cs2 (run cs1 w).
Proof. apply fold_left_app. Qed.

Lemma exec_size (c : call) (w : World) :
  size (this (snd (exec c w))) = size (this w).
Proof. rewrite exec_this. destruct c; [apply add_size|reflexivity]. Qed.

Lemma exec_numHashes (c : call) (w : World) :
  numHashes (this (snd (exec c w))) = numHashes (this w).
Proof. rewrite exec_this. destruct c; [apply add_numHashes|reflexivity]. Qed.

Lemma run_size (cs : list call) (w : World) :
  size (this (run cs w)) = size (this w).
Proof.
  revert w. induction cs as [|c cs IH]; intros w; [reflexivity|].
  now rewrite run_cons, IH, exec_size.
Qed.

Lemma run_numHashes (cs : list call) (w : World) :
  numHashes (this (run cs w)) = numHashes (this w).
Proof.
  revert w. induction cs as [|c cs IH]; intros w; [reflexivity|].
  now rewrite run_cons, IH, exec_numHashes.
Qed.

(** A slot read after a call holds 1, or what it held before the call. *)
Lemma exec_get (c : call) (w : World) (key : jsnum) :
  array_get (bitArray (this (snd (exec c w)))) key = Some 1 \/
  array_get (bitArray (this (snd (exec c w)))) key =
  array_get (bitArray (this w)) key.
Proof.
  rewrite exec_this. destruct c as [item|item]; [|now right].
  rewrite add_bitArray. apply set_bits_get.
Qed.

Lemma run_get (cs : list call) (w : World) (key : jsnum) :
  array_get (bitArray (this (run cs w))) key = Some 1 \/
  array_get (bitArray (this (run cs w))) key =
  array_get (bitArray (this w)) key.
Proof.
  revert w. induction cs as [|c cs IH]; intros w; [now right|].
  rewrite run_cons.
  destruct (IH (snd (exec c w))) as [H1|Hsame]; [now left|].
  rewrite Hsame. apply exec_get.
Qed.

Lemma run_keeps_one (cs : list call) (w : World) (key : jsnum) :
  array_get (bitArray (this w)) key = Some 1 ->
  array_get (bitArray (this (run cs w))) key = Some 1.
Proof. intros H1. destruct (run_get cs w key) as [H|H]; congruence. Qed.

Lemma run_zero_was_zero (cs : list call) (w : World) (key : jsnum) :
  array_get (bitArray (this (run cs w))) key = Some 0 ->
  array_get (bitArray (this w)) key = Some 0.
Proof. intros H0. destruct (run_get cs w key) as [H|H]; congruence. Qed.

Lemma run_bits_only (cs : list call) (w : World) :
  bits_only (bitArray (this w)) -> bits_only (bitArray (this (run cs w))).
Proof.
  intros Hbits key v Hv.
  destruct (run_get cs w key) as [H|H].
  - right. congruence.
  - apply (Hbits key). congruence.
Qed.

(** The writes of [add] on a filter whose array has [size] slots stay
    inside the array. *)
Lemma add_in_bounds (item : jsstring) (w : World) :
  in_bounds (this w) -> in_bounds (this (snd (add item w))).
Proof.
  intros [Hsize Hlen]. unfold in_bounds.
  rewrite add_size, add_bitArray. split; [exact Hsize|].
  rewrite <- Hlen.
  destruct (Z.eq_dec (size (this w)) 0) as [Hzero|Hpos].
  - apply set_bits_length_NaN. intros key Hin.
    apply in_indices in Hin as (seed & _ & <-).
    rewrite Hzero. apply hash_index_zero_size.
  - apply set_bits_length. intros key Hin.
    apply in_indices in Hin as (seed & _ & <-).
    rewrite Hlen. apply hash_index_bound. lia.
Qed.

Lemma run_in_bounds (cs : list call) (w : World) :
  in_bounds (this w) -> in_bounds (this (run cs w)).
Proof.
  revert w. induction cs as [|c cs IH]; intros w Hw; [exact Hw|].
  rewrite run_cons. apply IH. rewrite exec_this.
  destruct c; [now apply add_in_bounds|exact Hw].
Qed.

(** ** The constructor *)

Lemma constructor_Ok (sz k : Z) (f : BloomFilter) :
  constructor sz k = Ok f ->
  0 <= sz < 2 ^ 32 /\
  f = {| size := sz; numHashes := k;
         bitArray := Array_fill {| arr_length := sz; props := ∅ |} 0 |}.
Proof.
  unfold constructor, new_Array.
  destruct (Z.leb_spec 0 sz), (Z.ltb_spec sz (2 ^ 32)); simpl; intros Hf;
    inversion Hf; subst; split; (lia || reflexivity).
Qed.

Lemma constructor_negative (sz k : Z) :
  sz < 0 -> constructor sz k = Throw (RangeError "Invalid array length").
Proof.
  intros Hneg. unfold constructor, new_Array.
  destruct (Z.leb_spec 0 sz); [lia|reflexivity].
Qed.

Lemma constructor_fields (sz k : Z) (f : BloomFilter) :
  constructor sz k = Ok f -> size f = sz /\ numHashes f = k.
Proof. intros H. apply constructor_Ok in H as [_ ->]. now split. Qed.

Lemma constructor_in_bounds (sz k : Z) (f : BloomFilter) :
  constructor sz k = Ok f -> in_bounds f.
Proof. intros H. apply constructor_Ok in H as [Hsz ->]. split; simpl; lia. Qed.

Lemma constructor_zero_bits (sz k : Z) (f : BloomFilter) (i : Z) :
  constructor sz k = Ok f -> 0 <= i < sz ->
  array_get (bitArray f) (Num i) = Some 0.
Proof.
  intros H Hi. apply constructor_Ok in H as [Hsz ->].
  unfold array_get; simpl. apply fill_upto_lookup. lia.
Qed.

Lemma constructor_bits_only (sz k : Z) (f : BloomFilter) :
  constructor sz k = Ok f -> bits_only (bitArray f).
Proof.
  intros H key v Hv. apply constructor_Ok in H as [Hsz ->].
  unfold array_get in Hv; simpl in Hv.
  apply fill_upto_values in Hv as [->|Hv]; [now left|].
  now rewrite lookup_empty in Hv.
Qed.

(** ** Properties of the filter *)

Lemma indices_with_bitArray (f : BloomFilter) (a : JsArray) (item : jsstring) :
  indices (with_bitArray f a) item = indices f item.
Proof. reflexivity. Qed.

Lemma indices_run (cs : list call) (w : World) (item : jsstring) :
  indices (this (run cs w)) item = indices (this w) item.
Proof. unfold indices. now rewrite run_size, run_numHashes. Qed.

(** Whatever the filter, an item that was added is found, also after any
    further calls. *)
Lemma added_is_found (w : World) (after : list call) (x : jsstring) :
  fst (contains x (run after (snd (add x w)))) = true.
Proof.
  apply contains_true. intros key Hin.
  rewrite indices_run, add_this, indices_with_bitArray in Hin.
  rewrite (run_keeps_one after _ key); [discriminate|].
  rewrite add_bitArray. now apply set_bits_written.
Qed.

(** The index of [_hash] on any filter object whose [size] is positive. *)
Lemma _hash_bound (w : World) (item : jsstring) (seed : Z) :
  0 < size (this w) ->
  exists i, fst (_hash item seed w) = Num i /\ 0 <= i < size (this w).
Proof. intros Hsize. rewrite _hash_run. now apply hash_index_bound. Qed.

Lemma add_no_hashes (w : World) (item : jsstring) :
  numHashes (this w) <= 0 -> add item w = (tt, w).
Proof.
  intros Hk. unfold add, bind, get_numHashes.
  now replace (Z.to_nat (numHashes (this w))) with O by lia.
Qed.

Lemma contains_no_hashes (w : World) (item : jsstring) :
  numHashes (this w) <= 0 -> contains item w = (true, w).
Proof.
  intros Hk. unfold contains, bind, get_numHashes.
  now replace (Z.to_nat (numHashes (this w))) with O by lia.
Qed.

(** C1. No false negatives: on a filter constructed with a positive size
    and a positive number of hash functions, once [add(x)] has been called,
    whatever calls of [add] and [contains] came before and come after it,
    [contains(x)] returns [true]. *)
Theorem no_false_negatives
    (sz k : Z) (f0 : BloomFilter) (out : list jsnum)
    (before after : list call) (x : jsstring) :
  0 < sz -> 0 < k -> constructor sz k = Ok f0 ->
  fst (contains x (run (before ++ Add x :: after) (fresh f0 out))) = true.
Proof.
  intros _ _ _. rewrite run_app, run_cons.
  unfold exec at 1, bind, ret.
  destruct (add x (run before (fresh f0 out))) as [u w1] eqn:Hadd; simpl.
  replace w1 with (snd (add x (run before (fresh f0 out)))) by now rewrite Hadd.
  apply added_is_found.
Qed.

Lemma no_false_negatives_witness :
  exists f0, constructor 100 3 = Ok f0 /\
    fst (contains (js "apple")
           (run ([Add (js "banana"); Contains (js "apple")] ++
                 Add (js "apple") :: [Add (js "cherry"); Contains (js "grape")])
                (fresh f0 []))) = true.
Proof.
  eexists. split; [reflexivity|].
  apply (no_false_negatives 100 3); [lia|lia|reflexivity].
Defined.

(** C2. The update of the code, [(hash << 5) - hash + char] followed by
    [hash & hash], is the update [hash * 31 + codepoint] wrapped to a signed
    32-bit integer, for every int32 accumulator and every code unit; so the
    two running hashes agree from every int32 accumulator and on every
    string, and the accumulator stays an int32. *)
Theorem hash_refines_spec (h : Z) (item : jsstring) :
  is_int32 h ->
  (forall c, hash_step h c = spec_hash_step h c) /\
  fold_left hash_step item h = fold_left spec_hash_step item h /\
  is_int32 (fold_left hash_step item h) /\
  running_hash item = spec_running_hash item.
Proof.
  intros Hh. repeat split.
  - intros c. apply hash_step_spec.
  - apply fold_hash_step_spec.
  - apply (fold_hash_step_range item h Hh).
  - apply (fold_hash_step_range item h Hh).
  - apply fold_hash_step_spec.
Qed.

Lemma hash_refines_spec_witness :
  is_int32 (-2143208978) /\
  fold_left hash_step (js "apple") (-2143208978) =
  fold_left spec_hash_step (js "apple") (-2143208978).
Proof.
  assert (H : is_int32 (-2143208978)) by (unfold is_int32; lia).
  split; [exact H|].
  exact (proj1 (proj2 (hash_refines_spec (-2143208978) (js "apple") H))).
Defined.

(** C3. Index bound: on a filter constructed with a positive size, after
    any calls, the index [_hash] returns for any item and any integer seed is
    an integer in [0, size), and [size] is still the length of the array: the
    slot that [add] writes and [contains] reads lies inside the array and
    holds a value. *)
Theorem hash_index_within_array
    (sz k : Z) (f0 : BloomFilter) (out : list jsnum) (cs : list call)
    (item : jsstring) (seed : Z) :
  0 < sz -> constructor sz k = Ok f0 ->
  exists i,
    fst (_hash item seed (run cs (fresh f0 out))) = Num i /\
    0 <= i < size (this (run cs (fresh f0 out))) /\
    size (this (run cs (fresh f0 out))) = sz /\
    arr_length (bitArray (this (run cs (fresh f0 out)))) = sz /\
    is_Some (array_get (bitArray (this (run cs (fresh f0 out)))) (Num i)).
Proof.
  intros Hsz Hf0.
  assert (Hsize : size (this (run cs (fresh f0 out))) = sz).
  { rewrite run_size. simpl. now apply constructor_fields in Hf0. }
  destruct (_hash_bound (run cs (fresh f0 out)) item seed) as (i & Hi & Hrange);
    [lia|].
  exists i. repeat split; try (exact Hi || lia).
  - destruct (run_in_bounds cs (fresh f0 out)) as [_ Hlen].
    + simpl. now apply constructor_in_bounds in Hf0.
    + lia.
  - destruct (run_get cs (fresh f0 out) (Num i)) as [H1|Hsame].
    + rewrite H1. now eexists.
    + rewrite Hsame. simpl.
      rewrite (constructor_zero_bits sz k f0 i Hf0) by lia. now eexists.
Qed.

Lemma hash_index_within_array_witness :
  exists f0, constructor 100 3 = Ok f0 /\
  exists i,
    fst (_hash (js "banana") 1 (run [Add (js "apple")] (fresh f0 []))) = Num i /\
    0 <= i < size (this (run [Add (js "apple")] (fresh f0 []))) /\
    size (this (run [Add (js "apple")] (fresh f0 []))) = 100 /\
    arr_length (bitArray (this (run [Add (js "apple")] (fresh f0 [])))) = 100 /\
    is_Some (array_get (bitArray (this (run [Add (js "apple")] (fresh f0 []))))
               (Num i)).
Proof.
  eexists. split; [reflexivity|].
  apply (hash_index_within_array 100 3); [lia|reflexivity].
Defined.

(** C4. Bit monotonicity: on a constructed filter, after any calls every
    slot 0, ..., size - 1 of the bit array holds the Number 0 or the Number 1,
    and no other value is stored under any key; a slot that holds 1 holds 1
    after any further calls; and a slot that holds 0 after further calls held
    0 before them, so that no call writes a 0. *)
Theorem bit_monotonicity
    (sz k : Z) (f0 : BloomFilter) (out : list jsnum) (cs1 cs2 : list call) :
  constructor sz k = Ok f0 ->
  (forall i, 0 <= i < sz ->
     array_get (bitArray (this (run cs1 (fresh f0 out)))) (Num i) = Some 0 \/
     array_get (bitArray (this (run cs1 (fresh f0 out)))) (Num i) = Some 1) /\
  bits_only (bitArray (this (run cs1 (fresh f0 out)))) /\
  (forall key,
     array_get (bitArray (this (run cs1 (fresh f0 out)))) key = Some 1 ->
     array_get (bitArray (this (run cs2 (run cs1 (fresh f0 out))))) key
     = Some 1) /\
  (forall key,
     array_get (bitArray (this (run cs2 (run cs1 (fresh f0 out))))) key
     = Some 0 ->
     array_get (bitArray (this (run cs1 (fresh f0 out)))) key = Some 0).
Proof.
  intros Hf0. split; [|split; [|split]].
  - intros i Hi.
    destruct (run_get cs1 (fresh f0 out) (Num i)) as [Hone|Hsame].
    + now right.
    + left. rewrite Hsame. simpl. now apply (constructor_zero_bits sz k).
  - apply run_bits_only. simpl. now apply constructor_bits_only in Hf0.
  - intros key. apply run_keeps_one.
  - intros key. apply run_zero_was_zero.
Qed.

Lemma bit_monotonicity_witness :
  exists f0, constructor 100 3 = Ok f0 /\
  (forall i, 0 <= i < 100 ->
     array_get (bitArray (this (run [Add (js "apple")] (fresh f0 [])))) (Num i)
     = Some 0 \/
     array_get (bitArray (this (run [Add (js "apple")] (fresh f0 [])))) (Num i)
     = Some 1) /\
  bits_only (bitArray (this (run [Add (js "apple")] (fresh f0 [])))) /\
  (forall key,
     array_get (bitArray (this (run [Add (js "apple")] (fresh f0 [])))) key
     = Some 1 ->
     array_get
       (bitArray (this (run [Contains (js "apple"); Add (js "banana")]
                          (run [Add (js "apple")] (fresh f0 []))))) key
     = Some 1) /\
  (forall key,
     array_get
       (bitArray (this (run [Contains (js "apple"); Add (js "banana")]
                          (run [Add (js "apple")] (fresh f0 []))))) key
     = Some 0 ->
     array_get (bitArray (this (run [Add (js "apple")] (fresh f0 [])))) key
     = Some 0).
Proof.
  eexists. split; [reflexivity|].
  apply (bit_monotonicity 100 3). reflexivity.
Defined.

(** C5. Empty filter: on a filter just constructed with a positive size
    and at least one hash function, [contains] returns [false] for every
    item. *)
Theorem empty_filter_contains_nothing
    (sz k : Z) (f0 : BloomFilter) (out : list jsnum) (item : jsstring) :
  0 < sz -> 1 <= k -> constructor sz k = Ok f0 ->
  fst (contains item (fresh f0 out)) = false.
Proof.
  intros Hsz Hk Hf0.
  destruct (fst (contains item (fresh f0 out))) eqn:Hfound; [|reflexivity].
  exfalso. destruct (constructor_fields sz k f0 Hf0) as [Hsize Hnum].
  destruct (hash_index_bound sz item 0 Hsz) as (i & Hi & Hrange).
  apply (proj1 (contains_true item (fresh f0 out)) Hfound (Num i)).
  - apply in_indices. exists 0. simpl. rewrite Hsize, Hnum. split; [lia|exact Hi].
  - simpl. now apply (constructor_zero_bits sz k).
Qed.

Lemma empty_filter_contains_nothing_witness :
  exists f0, constructor 100 3 = Ok f0 /\
    fst (contains (js "apple") (fresh f0 [])) = false.
Proof.
  eexists. split; [reflexivity|].
  apply (empty_filter_contains_nothing 100 3); [lia|lia|reflexivity].
Defined.

(** C6, as the code has it. The constructor checks nothing itself. With a
    negative size it fails with the RangeError of [new Array(size)]; with
    size 0 it succeeds, and returns a filter of size 0 over an empty
    array. *)
Theorem constructor_nonpositive_size (sz k : Z) :
  sz <= 0 ->
  (sz < 0 /\ constructor sz k = Throw (RangeError "Invalid array length")) \/
  (sz = 0 /\
   constructor sz k =
   Ok {| size := 0; numHashes := k;
         bitArray := {| arr_length := 0; props := ∅ |} |}).
Proof.
  intros Hsz. destruct (Z.eq_dec sz 0) as [->|Hne].
  - right. split; reflexivity.
  - left. split; [lia|]. apply constructor_negative. lia.
Qed.

Lemma constructor_nonpositive_size_witness :
  constructor (-1) 3 = Throw (RangeError "Invalid array length").
Proof.
  destruct (constructor_nonpositive_size (-1) 3 ltac:(lia)) as [[_ H]|[H _]].
  - exact H.
  - discriminate H.
Defined.

(** C6, as stated, fails at size 0: the constructor returns a filter, on
    which [_hash] returns NaN and [contains] answers [true]. *)
Lemma constructor_accepts_zero_size :
  0 <= 0 /\
  (forall e, constructor 0 3 <> Throw e) /\
  exists f0, constructor 0 3 = Ok f0 /\
    fst (_hash (js "apple") 0 (fresh f0 [])) = NaN /\
    fst (contains (js "apple") (fresh f0 [])) = true.
Proof.
  split; [lia|]. split; [discriminate|].
  eexists. split; [reflexivity|]. split; reflexivity.
Qed.

(** C7. Determinism: the index [_hash] returns for an item and a seed is
    the same on any two filters of the same size, whatever their bit arrays,
    their numbers of hash functions and the calls made before. *)
Theorem hash_deterministic (w1 w2 : World) (item : jsstring) (seed : Z) :
  size (this w1) = size (this w2) ->
  fst (_hash item seed w1) = fst (_hash item seed w2).
Proof. intros Hsize. rewrite !_hash_run. simpl. now rewrite Hsize. Qed.

Lemma hash_deterministic_witness :
  fst (_hash (js "apple") 2
         (fresh {| size := 100; numHashes := 3;
                   bitArray := Array_fill {| arr_length := 100; props := ∅ |} 0 |}
                [])) =
  fst (_hash (js "apple") 2
         (run [Add (js "banana"); Contains (js "apple")]
            (fresh {| size := 100; numHashes := 7;
                      bitArray :=
                        Array_fill {| arr_length := 100; props := ∅ |} 0 |}
                   [NaN]))).
Proof. apply hash_deterministic. reflexivity. Defined.

(** C8. Frame: [add(item)] leaves [size] and [numHashes] as they are and
    changes no slot of the bit array other than those at the indices that
    [_hash] derives from the item for the seeds below [numHashes];
    [contains(item)] leaves the whole filter object as it is. *)
Theorem add_contains_frame (w : World) (item : jsstring) :
  size (this (snd (add item w))) = size (this w) /\
  numHashes (this (snd (add item w))) = numHashes (this w) /\
  (forall key,
     (forall seed, 0 <= seed < numHashes (this w) ->
        fst (_hash item seed w) <> key) ->
     array_get (bitArray (this (snd (add item w)))) key =
     array_get (bitArray (this w)) key) /\
  this (snd (contains item w)) = this w.
Proof.
  split; [apply add_size|]. split; [apply add_numHashes|].
  split; [|apply contains_this].
  intros key Hkey. rewrite add_bitArray. apply set_bits_other.
  intros Hin. apply in_indices in Hin as (seed & Hseed & Hidx).
  apply (Hkey seed Hseed). now rewrite _hash_run.
Qed.

Lemma add_contains_frame_witness :
  array_get
    (bitArray (this (snd (add (js "apple")
       (fresh {| size := 100; numHashes := 3;
                 bitArray := Array_fill {| arr_length := 100; props := ∅ |} 0 |}
              []))))) (Num 9) =
  array_get (Array_fill {| arr_length := 100; props := ∅ |} 0) (Num 9).
Proof.
  apply (add_contains_frame (fresh {| size := 100; numHashes := 3;
                         bitArray :=
                           Array_fill {| arr_length := 100; props := ∅ |} 0 |}
                      []) (js "apple")).
  intros seed Hseed. simpl in Hseed.
  assert (Hcases : seed = 0 \/ seed = 1 \/ seed = 2) by lia.
  destruct Hcases as [-> | [-> | ->]]; vm_compute; discriminate.
Defined.

(** C9. On a filter with a positive size and at least one hash function,
    [add(x)] twice leaves the filter object as [add(x)] once does, and
    [add(x)] then [add(y)] leaves it as [add(y)] then [add(x)] does. *)
Theorem add_idempotent_commutative (w : World) (x y : jsstring) :
  0 < size (this w) -> 1 <= numHashes (this w) ->
  this (snd (add x (snd (add x w)))) = this (snd (add x w)) /\
  this (snd (add y (snd (add x w)))) = this (snd (add x (snd (add y w)))).
Proof.
  intros _ _. split.
  - rewrite (add_this x (snd (add x w))), (add_this x w).
    rewrite indices_with_bitArray. unfold with_bitArray; simpl.
    now rewrite set_bits_idem.
  - rewrite (add_this y (snd (add x w))), (add_this x (snd (add y w))).
    rewrite (add_this x w), (add_this y w).
    rewrite !indices_with_bitArray. unfold with_bitArray; simpl.
    now rewrite set_bits_comm.
Qed.

Lemma add_idempotent_commutative_witness :
  let w := fresh {| size := 100; numHashes := 3;
                    bitArray :=
                      Array_fill {| arr_length := 100; props := ∅ |} 0 |} [] in
  this (snd (add (js "apple") (snd (add (js "apple") w)))) =
  this (snd (add (js "apple") w)) /\
  this (snd (add (js "banana") (snd (add (js "apple") w)))) =
  this (snd (add (js "apple") (snd (add (js "banana") w)))).
Proof.
  intros w. apply (add_idempotent_commutative w); simpl; lia.
Defined.

(** C10. With [numHashes] 0, which the constructor accepts, on the filter
    after any calls [add] changes nothing, not even the console, and
    [contains] answers [true] for every item; so it does on the filter just
    constructed, to which nothing was added. *)
Theorem zero_hashes_degenerate
    (sz : Z) (f0 : BloomFilter) (out : list jsnum) (cs : list call)
    (item : jsstring) :
  constructor sz 0 = Ok f0 ->
  snd (add item (run cs (fresh f0 out))) = run cs (fresh f0 out) /\
  fst (contains item (run cs (fresh f0 out))) = true /\
  fst (contains item (fresh f0 out)) = true.
Proof.
  intros Hf0. apply constructor_fields in Hf0 as [_ Hk].
  assert (Hrun : numHashes (this (run cs (fresh f0 out))) <= 0).
  { rewrite run_numHashes. simpl. lia. }
  rewrite (add_no_hashes _ item Hrun), (contains_no_hashes _ item Hrun).
  rewrite (contains_no_hashes (fresh f0 out) item) by (simpl; lia).
  repeat split.
Qed.

Lemma zero_hashes_degenerate_witness :
  exists f0, constructor 100 0 = Ok f0 /\
    snd (add (js "apple") (run [Add (js "banana")] (fresh f0 []))) =
    run [Add (js "banana")] (fresh f0 []) /\
    fst (contains (js "apple") (run [Add (js "banana")] (fresh f0 []))) = true /\
    fst (contains (js "apple") (fresh f0 [])) = true.
Proof.
  eexists. split; [reflexivity|].
  apply (zero_hashes_degenerate 100). reflexivity.
Defined.

(** ** More on the hash *)

Lemma hash_step_wraps (a : Z) (c : N) :
  hash_step (ToInt32 a) c = ToInt32 (a * 31 + charCode c).
Proof.
  rewrite hash_step_spec. unfold spec_hash_step.
  destruct (ToInt32_wraps a) as [q Hq].
  apply (ToInt32_congr _ _ (31 * q)). lia.
Qed.

Lemma fold_hash_step_wraps (item : jsstring) (a : Z) :
  fold_left hash_step item (ToInt32 a) =
  ToInt32 (fold_left (fun h c => h * 31 + charCode c) item a).
Proof.
  revert a. induction item as [|c item IH]; intros a.
  - now rewrite !fold_left_done.
  - rewrite !fold_left_step, hash_step_wraps. apply IH.
Qed.

(** X1. The running hash of [_hash] is the polynomial of the code units in
    31, wrapped to a signed 32-bit integer once at the end: wrapping at every
    round loses nothing. *)
Theorem running_hash_wraps_once (item : jsstring) :
  running_hash item = ToInt32 (poly_hash item).
Proof.
  unfold running_hash, poly_hash.
  rewrite <- fold_hash_step_wraps. reflexivity.
Qed.

(** X2. On a filter of positive size the index is the magnitude of the
    seeded hash modulo [size]: a negative hash lands where its opposite
    does. *)
Theorem index_is_abs_hash_mod_size (w : World) (item : jsstring) (seed : Z) :
  0 < size (this w) ->
  fst (_hash item seed w) =
  Num (Z.abs (js_xor (running_hash item) seed) mod size (this w)).
Proof.
  intros Hsize. rewrite _hash_run. cbn [fst]. unfold hash_index, js_rem.
  destruct (Z.eqb_spec (size (this w)) 0) as [Hz|Hne]; [lia|]. cbn [Math_abs].
  rewrite <- Z.rem_abs_l by exact Hne.
  now rewrite Z.rem_mod_nonneg by lia.
Qed.

Lemma index_is_abs_hash_mod_size_witness :
  fst (_hash (js "item_1234") 0
         (fresh {| size := 100; numHashes := 3;
                   bitArray := Array_fill {| arr_length := 100; props := ∅ |} 0 |} [])) =
  Num (Z.abs (js_xor (running_hash (js "item_1234")) 0) mod 100).
Proof.
  apply (index_is_abs_hash_mod_size
           (fresh {| size := 100; numHashes := 3;
                     bitArray := Array_fill {| arr_length := 100; props := ∅ |} 0 |} [])).
  simpl. lia.
Defined.

Lemma js_xor_0_l (seed : Z) : js_xor 0 seed = ToInt32 seed.
Proof.
  unfold js_xor. change (ToInt32 0) with 0.
  rewrite Z.lxor_0_l. apply ToInt32_idem.
Qed.

(** X3. The empty string: the loop of [_hash] runs no round, and for a
    seed below [size] and below 2^31 the index is the seed itself. *)
Theorem empty_string_index_is_seed (w : World) (seed : Z) :
  0 <= seed < size (this w) -> seed < 2 ^ 31 ->
  fst (_hash [] seed w) = Num seed.
Proof.
  intros Hseed Hint. rewrite _hash_run. cbn [fst]. unfold hash_index, js_rem.
  change (running_hash []) with 0. rewrite js_xor_0_l.
  rewrite ToInt32_id by (unfold is_int32; lia).
  destruct (Z.eqb_spec (size (this w)) 0) as [Hz|Hne]; [lia|]. cbn [Math_abs].
  rewrite Z.rem_small by lia. f_equal. lia.
Qed.

Lemma empty_string_index_is_seed_witness :
  fst (_hash [] 2
         (fresh {| size := 100; numHashes := 3;
                   bitArray := Array_fill {| arr_length := 100; props := ∅ |} 0 |} [])) =
  Num 2.
Proof.
  apply (empty_string_index_is_seed
           (fresh {| size := 100; numHashes := 3;
                     bitArray := Array_fill {| arr_length := 100; props := ∅ |} 0 |} []));
    simpl; lia.
Defined.

Lemma int32_div (a : Z) : is_int32 a <-> a / 2 ^ 31 = 0 \/ a / 2 ^ 31 = -1.
Proof.
  unfold is_int32.
  pose proof (Z.div_mod a (2 ^ 31) ltac:(lia)) as Hdiv.
  pose proof (Z.mod_pos_bound a (2 ^ 31) ltac:(lia)) as Hmod.
  lia.
Qed.

Lemma lxor_int32 (a b : Z) : is_int32 a -> is_int32 b -> is_int32 (Z.lxor a b).
Proof.
  rewrite !int32_div, <- !Z.shiftr_div_pow2 by lia.
  rewrite Z.shiftr_lxor.
  intros [-> | ->] [-> | ->]; vm_compute; auto.
Qed.

Lemma land_nonneg_bound (h s : Z) : 0 <= s -> 0 <= Z.land h s <= s.
Proof.
  intros Hs. split; [apply Z.land_nonneg; now right|].
  assert (Hdisj : Z.land (Z.ldiff s h) (Z.land s h) = 0).
  { apply Z.bits_inj'. intros n Hn.
    rewrite Z.land_spec, Z.ldiff_spec, Z.land_spec, Z.bits_0.
    destruct (Z.testbit s n), (Z.testbit h n); reflexivity. }
  pose proof (Z.add_nocarry_lxor _ _ Hdisj) as Hadd.
  rewrite (Z.lxor_lor _ _ Hdisj), Z.lor_ldiff_and in Hadd.
  assert (Hdiff : 0 <= Z.ldiff s h) by (apply Z.ldiff_nonneg; now left).
  rewrite (Z.land_comm h s). lia.
Qed.

Lemma js_xor_int32 (h seed : Z) :
  is_int32 h -> is_int32 seed -> js_xor h seed = Z.lxor h seed.
Proof.
  intros Hh Hseed. unfold js_xor.
  rewrite (ToInt32_id h Hh), (ToInt32_id seed Hseed).
  apply ToInt32_id. now apply lxor_int32.
Qed.

(** X13. The hash functions are one hash: for a seed in [0, 2^31) the
    seeded hash differs from the running hash of the item by at most the
    seed, so the hashes for the seeds 0, ..., k - 1 all lie within k - 1 of
    the running hash. *)
Theorem seed_hashes_near_base (item : jsstring) (seed : Z) :
  0 <= seed < 2 ^ 31 ->
  Z.abs (js_xor (running_hash item) seed - running_hash item) <= seed.
Proof.
  intros Hseed.
  rewrite js_xor_int32 by (apply running_hash_range || (unfold is_int32; lia)).
  pose proof (Z.add_lxor_2land (running_hash item) seed) as Hsum.
  pose proof (land_nonneg_bound (running_hash item) seed ltac:(lia)) as Hland.
  lia.
Qed.

Lemma seed_hashes_near_base_witness :
  Z.abs (js_xor (running_hash (js "apple")) 6 - running_hash (js "apple")) <= 6.
Proof. apply seed_hashes_near_base. lia. Defined.

Lemma hash_index_collide (sz : Z) (x y : jsstring) (seed : Z) :
  running_hash x = running_hash y ->
  hash_index sz x seed = hash_index sz y seed.
Proof. intros Heq. unfold hash_index. now rewrite Heq. Qed.

Lemma indices_collide (f : BloomFilter) (x y : jsstring) :
  running_hash x = running_hash y -> indices f x = indices f y.
Proof.
  intros Heq. unfold indices. apply map_ext. intros seed.
  now apply hash_index_collide.
Qed.

(** X4. Two items with the same running hash have the same index for
    every seed on every filter, so the filter cannot tell them apart: once one
    is added, [contains] answers [true] for the other, whatever the size and
    the number of hash functions. *)
Theorem colliding_items_indistinguishable
    (w : World) (after : list call) (x y : jsstring) :
  running_hash x = running_hash y ->
  (forall w' seed, fst (_hash x seed w') = fst (_hash y seed w')) /\
  fst (contains y (run after (snd (add x w)))) = true.
Proof.
  intros Heq. split.
  - intros w' seed. rewrite !_hash_run. now apply hash_index_collide.
  - apply contains_true. intros key Hin.
    rewrite <- (indices_collide _ x y Heq) in Hin.
    rewrite indices_run, add_this, indices_with_bitArray in Hin.
    rewrite (run_keeps_one after _ key); [discriminate|].
    rewrite add_bitArray. now apply set_bits_written.
Qed.

Lemma colliding_items_indistinguishable_witness :
  fst (contains (js "BB")
         (run [Add (js "cherry")]
            (snd (add (js "Aa")
               (fresh {| size := 100; numHashes := 3;
                         bitArray := Array_fill {| arr_length := 100; props := ∅ |} 0 |}
                      []))))) = true.
Proof.
  apply (colliding_items_indistinguishable
           (fresh {| size := 100; numHashes := 3;
                     bitArray := Array_fill {| arr_length := 100; props := ∅ |} 0 |} [])
           [Add (js "cherry")] (js "Aa") (js "BB")).
  reflexivity.
Defined.

(** ** The state after a sequence of calls *)

Lemma written_with_bitArray (f : BloomFilter) (a : JsArray) (cs : list call) :
  written (with_bitArray f a) cs = written f cs.
Proof.
  induction cs as [|[item|item] cs IH]; simpl; [reflexivity| |exact IH].
  now rewrite IH.
Qed.

Lemma set_bits_app (l1 l2 : list jsnum) (a : JsArray) :
  set_bits (l1 ++ l2) a = set_bits l2 (set_bits l1 a).
Proof. apply fold_left_app. Qed.

(** A sequence of calls performs the writes of its calls of [add], and
    nothing else on the object. *)
Lemma run_this (cs : list call) (w : World) :
  this (run cs w) =
  with_bitArray (this w) (set_bits (written (this w) cs) (bitArray (this w))).
Proof.
  revert w. induction cs as [|c cs IH]; intros w.
  - symmetry. apply with_bitArray_same.
  - rewrite run_cons, IH, exec_this. destruct c as [item|item].
    + rewrite add_this, written_with_bitArray. cbn [written].
      now rewrite set_bits_app.
    + reflexivity.
Qed.

Lemma in_written (f : BloomFilter) (cs : list call) (key : jsnum) :
  In key (written f cs) <->
  exists x, In (Add x) cs /\ In key (indices f x).
Proof.
  induction cs as [|[item|item] cs IH]; cbn [written].
  - split; [intros []|intros (x & [] & _)].
  - rewrite in_app_iff, IH. split.
    + intros [Hin|(x & Hx & Hin)].
      * exists item. split; [now left|exact Hin].
      * exists x. split; [now right|exact Hin].
    + intros (x & [Hx|Hx] & Hin).
      * left. now inversion Hx; subst.
      * right. now exists x.
  - rewrite IH. split.
    + intros (x & Hx & Hin). exists x. split; [now right|exact Hin].
    + intros (x & [Hx|Hx] & Hin); [discriminate Hx|now exists x].
Qed.

Lemma set_bits_one_iff (keys : list jsnum) (a : JsArray) (key : jsnum) :
  array_get (set_bits keys a) key = Some 1 <->
  In key keys \/ array_get a key = Some 1.
Proof.
  destruct (in_dec jsnum_eq_dec key keys) as [Hin|Hnin].
  - rewrite set_bits_written by exact Hin. split; [now left|reflexivity].
  - rewrite set_bits_other by exact Hnin. split; [now right|now intros [?|?]].
Qed.

Lemma set_bits_absorb (keys : list jsnum) (a : JsArray) (key : jsnum) :
  In key keys -> array_set (set_bits keys a) key 1 = set_bits keys a.
Proof.
  revert a. induction keys as [|k keys IH]; intros a Hin; [destruct Hin|].
  rewrite set_bits_cons. destruct Hin as [->|Hin].
  - now rewrite <- set_bits_set, array_set_idem.
  - now apply IH.
Qed.

Lemma set_bits_incl (ks ks' : list jsnum) (a : JsArray) :
  (forall key, In key ks' -> In key ks) ->
  set_bits ks' (set_bits ks a) = set_bits ks a.
Proof.
  induction ks' as [|k ks' IH]; intros Hincl; [reflexivity|].
  rewrite set_bits_cons, set_bits_absorb by (apply Hincl; now left).
  apply IH. intros key Hin. apply Hincl. now right.
Qed.

(** The writes depend on the set of the keys only. *)
Lemma set_bits_same_keys (ks ks' : list jsnum) (a : JsArray) :
  (forall key, In key ks <-> In key ks') -> set_bits ks a = set_bits ks' a.
Proof.
  intros Hsame.
  transitivity (set_bits ks' (set_bits ks a)).
  - symmetry. apply set_bits_incl. intros key. apply Hsame.
  - rewrite set_bits_comm. apply set_bits_incl. intros key. apply Hsame.
Qed.

Lemma fill_upto_outside (n : nat) (v : Z) (m : gmap jsnum Z) (key : jsnum) :
  (forall i, 0 <= i < Z.of_nat n -> key <> Num i) ->
  fill_upto n v m !! key = m !! key.
Proof.
  induction n as [|n IH]; intros Hout; simpl; [reflexivity|].
  rewrite lookup_insert_ne.
  - apply IH. intros i Hi. apply Hout. lia.
  - intros Heq. apply (Hout (Z.of_nat n)); [lia|now symmetry].
Qed.

Lemma constructor_no_one (sz k : Z) (f : BloomFilter) (key : jsnum) :
  constructor sz k = Ok f -> array_get (bitArray f) key <> Some 1.
Proof.
  intros Hf Hone. apply constructor_Ok in Hf as [_ ->].
  unfold array_get in Hone; simpl in Hone.
  apply fill_upto_values in Hone as [Hone|Hone]; [discriminate Hone|].
  now rewrite lookup_empty in Hone.
Qed.

(** A slot inside the array of a constructed filter holds 0 or 1 after any
    calls. *)
Lemma run_slot (sz k : Z) (f0 : BloomFilter) (out : list jsnum)
    (cs : list call) (i : Z) :
  constructor sz k = Ok f0 -> 0 <= i < sz ->
  array_get (bitArray (this (run cs (fresh f0 out)))) (Num i) = Some 0 \/
  array_get (bitArray (this (run cs (fresh f0 out)))) (Num i) = Some 1.
Proof.
  intros Hf0 Hi. destruct (run_get cs (fresh f0 out) (Num i)) as [H1|Hsame].
  - now right.
  - left. rewrite Hsame. simpl. now apply (constructor_zero_bits sz k).
Qed.

(** After any calls on any filter, a slot holds 1 when it held 1 before or
    one of the calls of [add] wrote it. *)
Lemma run_one_iff (cs : list call) (w : World) (key : jsnum) :
  array_get (bitArray (this (run cs w))) key = Some 1 <->
  array_get (bitArray (this w)) key = Some 1 \/
  exists x, In (Add x) cs /\ In key (indices (this w) x).
Proof.
  rewrite run_this. cbn [bitArray with_bitArray].
  rewrite set_bits_one_iff, in_written. tauto.
Qed.

(** X5. On a constructed filter, after any calls, the slots that hold 1
    are exactly the indices of the items that were added: a slot holds 1 if
    and only if it is the index, for a seed below [numHashes], of an item of
    some call of [add]. *)
Theorem set_slots_are_added_indices
    (sz k : Z) (f0 : BloomFilter) (out : list jsnum) (cs : list call)
    (key : jsnum) :
  constructor sz k = Ok f0 ->
  array_get (bitArray (this (run cs (fresh f0 out)))) key = Some 1 <->
  exists x seed,
    In (Add x) cs /\ 0 <= seed < k /\ hash_index sz x seed = key.
Proof.
  intros Hf0. destruct (constructor_fields sz k f0 Hf0) as [Hsize Hnum].
  rewrite run_one_iff. cbn [this fresh]. split.
  - intros [Hone|(x & Hx & Hin)].
    + now apply (constructor_no_one sz k f0 key Hf0) in Hone.
    + apply in_indices in Hin as (seed & Hseed & Hkey).
      exists x, seed. now rewrite <- Hsize, <- Hnum.
  - intros (x & seed & Hx & Hseed & Hkey). right. exists x. split; [exact Hx|].
    apply in_indices. exists seed. now rewrite Hsize, Hnum.
Qed.

Lemma set_slots_are_added_indices_witness :
  exists f0, constructor 100 3 = Ok f0 /\
  (array_get
     (bitArray (this (run [Add (js "apple"); Contains (js "grape")]
                        (fresh f0 [])))) (Num 11) = Some 1 <->
   exists x seed,
     In (Add x) [Add (js "apple"); Contains (js "grape")] /\
     0 <= seed < 3 /\ hash_index 100 x seed = Num 11).
Proof.
  eexists. split; [reflexivity|].
  apply (set_slots_are_added_indices 100 3). reflexivity.
Defined.

(** X6. The answers of [contains], false positives included: on a filter
    constructed with a positive size, after any calls, [contains(y)] returns
    [true] if and only if every index of [y] is an index of some item that was
    added. *)
Theorem contains_iff_indices_covered
    (sz k : Z) (f0 : BloomFilter) (out : list jsnum) (cs : list call)
    (y : jsstring) :
  0 < sz -> constructor sz k = Ok f0 ->
  fst (contains y (run cs (fresh f0 out))) = true <->
  forall seed, 0 <= seed < k ->
    exists x seed',
      In (Add x) cs /\ 0 <= seed' < k /\
      hash_index sz x seed' = hash_index sz y seed.
Proof.
  intros Hsz Hf0. destruct (constructor_fields sz k f0 Hf0) as [Hsize Hnum].
  assert (Hone : forall key,
            array_get (bitArray (this (run cs (fresh f0 out)))) key = Some 1 <->
            exists x, In (Add x) cs /\ In key (indices f0 x)).
  { intros key. rewrite run_one_iff. cbn [this fresh]. split.
    - intros [H1|Hx]; [|exact Hx].
      now apply (constructor_no_one sz k f0 key Hf0) in H1.
    - intros Hx. now right. }
  rewrite contains_true, indices_run. cbn [this fresh]. split.
  - intros Hall seed Hseed.
    destruct (hash_index_bound sz y seed Hsz) as (i & Hi & Hrange).
    assert (Hin : In (Num i) (indices f0 y)).
    { apply in_indices. exists seed. now rewrite Hsize, Hnum. }
    destruct (run_slot sz k f0 out cs i Hf0 Hrange) as [Hzero|Hset].
    + now destruct (Hall (Num i) Hin).
    + apply Hone in Hset as (x & Hx & Hkey).
      apply in_indices in Hkey as (seed' & Hseed' & Hkey).
      exists x, seed'. rewrite Hi. now rewrite <- Hsize, <- Hnum.
  - intros Hall key Hin.
    apply in_indices in Hin as (seed & Hseed & <-).
    rewrite Hnum in Hseed. destruct (Hall seed Hseed) as (x & seed' & Hx & Hseed' & Hkey).
    rewrite (proj2 (Hone (hash_index (size f0) y seed))); [discriminate|].
    exists x. split; [exact Hx|]. apply in_indices. exists seed'.
    now rewrite Hsize, Hnum.
Qed.

Lemma contains_iff_indices_covered_witness :
  exists f0, constructor 100 3 = Ok f0 /\
  (fst (contains (js "grape") (run [Add (js "apple")] (fresh f0 []))) = true <->
   forall seed, 0 <= seed < 3 ->
     exists x seed',
       In (Add x) [Add (js "apple")] /\ 0 <= seed' < 3 /\
       hash_index 100 x seed' = hash_index 100 (js "grape") seed).
Proof.
  eexists. split; [reflexivity|].
  apply (contains_iff_indices_covered 100 3); [lia|reflexivity].
Defined.

(** X7. A filter of size 0, which the constructor accepts, answers [true]
    to every query, before and after any calls: every index is NaN, and the
    slot at NaN never holds the Number 0. *)
Theorem zero_size_contains_all
    (k : Z) (f0 : BloomFilter) (out : list jsnum) (cs : list call)
    (item : jsstring) :
  constructor 0 k = Ok f0 ->
  fst (contains item (run cs (fresh f0 out))) = true.
Proof.
  intros Hf0. apply contains_true. intros key Hin.
  rewrite indices_run in Hin. cbn [this fresh] in Hin.
  apply in_indices in Hin as (seed & _ & <-).
  apply constructor_Ok in Hf0 as [_ ->]. cbn [size].
  rewrite hash_index_zero_size.
  destruct (run_get cs (fresh
    {| size := 0; numHashes := k;
       bitArray := Array_fill {| arr_length := 0; props := ∅ |} 0 |} out) NaN)
    as [Hone|Hsame].
  - rewrite Hone. discriminate.
  - rewrite Hsame. discriminate.
Qed.

Lemma zero_size_contains_all_witness :
  exists f0, constructor 0 3 = Ok f0 /\
    fst (contains (js "grape")
           (run [Add (js "apple"); Contains (js "apple")] (fresh f0 []))) = true.
Proof.
  eexists. split; [reflexivity|].
  apply (zero_size_contains_all 3). reflexivity.
Defined.

Lemma fresh_slots (sz : Z) (key : jsnum) :
  array_get (Array_fill {| arr_length := sz; props := ∅ |} 0) key =
  match key with
  | Num i => if (0 <=? i) && (i <? sz) then Some 0 else None
  | NaN => None
  end.
Proof.
  unfold array_get, Array_fill; simpl.
  destruct key as [i|].
  - destruct (Z.leb_spec 0 i), (Z.ltb_spec i sz); simpl.
    + apply fill_upto_lookup. lia.
    + rewrite fill_upto_outside; [apply lookup_empty|].
      intros j Hj Heq. inversion Heq. lia.
    + rewrite fill_upto_outside; [apply lookup_empty|].
      intros j Hj Heq. inversion Heq. lia.
    + rewrite fill_upto_outside; [apply lookup_empty|].
      intros j Hj Heq. inversion Heq. lia.
  - rewrite fill_upto_outside; [apply lookup_empty|].
    intros j Hj Heq. discriminate Heq.
Qed.

(** X8. What a successful construction returns: the size is then in
    [0, 2^32), the filter has the two fields as given, whatever [numHashes]
    is, and an array of length [size], whose slots 0, ..., size - 1 hold 0
    and which has no other slot. *)
Theorem constructor_initial_state (sz k : Z) (f : BloomFilter) :
  constructor sz k = Ok f ->
  0 <= sz < 2 ^ 32 /\ size f = sz /\ numHashes f = k /\
  arr_length (bitArray f) = sz /\
  forall key,
    array_get (bitArray f) key =
    match key with
    | Num i => if (0 <=? i) && (i <? sz) then Some 0 else None
    | NaN => None
    end.
Proof.
  intros Hf. apply constructor_Ok in Hf as [Hsz ->].
  repeat split; try lia. intros key. apply fresh_slots.
Qed.

Lemma constructor_initial_state_witness :
  exists f, constructor 200 4 = Ok f /\
    size f = 200 /\ numHashes f = 4 /\ arr_length (bitArray f) = 200 /\
    forall key,
      array_get (bitArray f) key =
      match key with
      | Num i => if (0 <=? i) && (i <? 200) then Some 0 else None
      | NaN => None
      end.
Proof.
  eexists. split; [reflexivity|].
  apply (constructor_initial_state 200 4 _ eq_refl).
Defined.

(** X9. Positive answers are stable: once [contains(x)] returns [true],
    it returns [true] after any further calls, on any filter. *)
Theorem positive_answers_stable (w : World) (cs : list call) (x : jsstring) :
  fst (contains x w) = true -> fst (contains x (run cs w)) = true.
Proof.
  intros Hfound. apply contains_true. intros key Hin.
  rewrite indices_run in Hin.
  pose proof (proj1 (contains_true x w) Hfound key Hin) as Hnz.
  destruct (run_get cs w key) as [Hone|Hsame].
  - rewrite Hone. discriminate.
  - now rewrite Hsame.
Qed.

Lemma positive_answers_stable_witness :
  let w := run [Add (js "apple")]
             (fresh {| size := 100; numHashes := 3;
                       bitArray :=
                         Array_fill {| arr_length := 100; props := ∅ |} 0 |}
                    []) in
  fst (contains (js "apple")
         (run [Add (js "banana"); Contains (js "grape")] w)) = true.
Proof. intros w. apply positive_answers_stable. reflexivity. Defined.

Lemma written_same_adds (f : BloomFilter) (cs cs' : list call) :
  (forall x, In (Add x) cs <-> In (Add x) cs') ->
  forall key, In key (written f cs) <-> In key (written f cs').
Proof.
  intros Hsame key. rewrite !in_written. split.
  - intros (x & Hx & Hin). exists x. split; [now apply Hsame|exact Hin].
  - intros (x & Hx & Hin). exists x. split; [now apply Hsame|exact Hin].
Qed.

(** X10. The filter after a sequence of calls depends only on the set of
    the items added: two sequences that add the same items, in any order, any
    number of times each and with any calls of [contains] in between, leave
    the same filter object. *)
Theorem state_depends_on_added_set (w : World) (cs cs' : list call) :
  (forall x, In (Add x) cs <-> In (Add x) cs') ->
  this (run cs w) = this (run cs' w).
Proof.
  intros Hsame. rewrite !run_this. f_equal.
  apply set_bits_same_keys. now apply written_same_adds.
Qed.

Lemma state_depends_on_added_set_witness :
  let w := fresh {| size := 100; numHashes := 3;
                    bitArray :=
                      Array_fill {| arr_length := 100; props := ∅ |} 0 |} [] in
  this (run [Add (js "apple"); Add (js "banana"); Contains (js "grape");
             Add (js "apple")] w) =
  this (run [Add (js "banana"); Add (js "apple")] w).
Proof.
  intros w. apply state_depends_on_added_set.
  intros x. simpl. intuition (try discriminate).
Defined.

(** ** The console *)

Lemma seeds_from_length (i : Z) (fuel : nat) :
  length (seeds_from i fuel) = fuel.
Proof.
  revert i. induction fuel as [|fuel IH]; intros i; simpl; [reflexivity|].
  now rewrite IH.
Qed.

Lemma add_loop_console (item : jsstring) (fuel : nat) (i : Z) (w : World) :
  fuel = Z.to_nat (numHashes (this w) - i) ->
  console (snd (add_loop item i fuel w)) =
  console w ++ List.map (hash_index (size (this w)) item) (seeds_from i fuel).
Proof.
  revert i w. induction fuel as [|fuel IH]; intros i w Hfuel.
  - simpl. now rewrite app_nil_r.
  - rewrite add_loop_S.
    destruct (Z.ltb_spec i (numHashes (this w))) as [Hlt|Hge]; [|lia].
    rewrite IH by (rewrite add_round_this; simpl; lia).
    rewrite add_round_this. cbn [size with_bitArray seeds_from List.map].
    unfold add_round. rewrite _hash_run. cbn [snd fst bitArray_set console].
    now rewrite <- app_assoc.
Qed.

Lemma map_hash_run (item : jsstring) (w : World) (l : list Z) :
  List.map (fun seed => fst (_hash item seed w)) l =
  List.map (hash_index (size (this w)) item) l.
Proof. apply map_ext. intros seed. now rewrite _hash_run. Qed.

(** X11. What [add] prints: [add(item)] appends to the console the
    indices of the item for the seeds 0, ..., numHashes - 1, in this order,
    and nothing else; these are [numHashes] lines (none when [numHashes] is
    not positive). *)
Theorem add_console_trace (w : World) (item : jsstring) :
  console (snd (add item w)) =
  console w ++
  List.map (fun seed => fst (_hash item seed w)) (seeds (numHashes (this w))) /\
  Z.of_nat (length (seeds (numHashes (this w)))) = Z.max 0 (numHashes (this w)).
Proof.
  split.
  - rewrite map_hash_run. unfold add, bind, get_numHashes.
    rewrite add_loop_console by (f_equal; lia). reflexivity.
  - unfold seeds. rewrite seeds_from_length. lia.
Qed.

Lemma contains_loop_console (item : jsstring) (fuel : nat) (i : Z) (w : World) :
  fuel = Z.to_nat (numHashes (this w) - i) ->
  exists n : nat,
    (n <= fuel)%nat /\
    console (snd (contains_loop item i fuel w)) =
    console w ++ List.map (hash_index (size (this w)) item) (seeds_from i n) /\
    (fst (contains_loop item i fuel w) = true -> n = fuel) /\
    (fst (contains_loop item i fuel w) = false ->
     exists m : nat,
       n = S m /\
       array_get (bitArray (this w))
         (hash_index (size (this w)) item (i + Z.of_nat m)) = Some 0).
Proof.
  revert i w. induction fuel as [|fuel IH]; intros i w Hfuel.
  - exists O. simpl. rewrite app_nil_r. repeat split; try lia; try discriminate.
  - rewrite contains_loop_S.
    destruct (Z.ltb_spec i (numHashes (this w))) as [Hlt|Hge]; [|lia].
    destruct (decide _) as [Hzero|Hnz].
    + exists 1%nat. rewrite _hash_run. cbn [fst snd console seeds_from List.map].
      repeat split; try lia; try discriminate.
      intros _. exists O. split; [reflexivity|].
      now replace (i + Z.of_nat 0) with i by lia.
    + destruct (IH (i + 1) (snd (_hash item i w))) as (n & Hn & Hcons & Htrue & Hfalse).
      { rewrite _hash_run. cbn [snd this]. lia. }
      exists (S n). rewrite Hcons. rewrite _hash_run in *.
      cbn [fst snd console this seeds_from List.map] in *.
      repeat split.
      * lia.
      * now rewrite <- app_assoc.
      * intros Ht. f_equal. now apply Htrue.
      * intros Hf. destruct (Hfalse Hf) as (m & -> & Hm).
        exists (S m). split; [reflexivity|].
        now replace (i + Z.of_nat (S m)) with (i + 1 + Z.of_nat m) by lia.
Qed.

(** X12. What [contains] prints: [contains(item)] appends to the console
    the indices of the item for the first [n] seeds, for some [n] of at most
    [numHashes], and nothing else. When it returns [true] it has printed all
    of them; when it returns [false] it has stopped at the first slot that
    holds 0, whose index is the last line printed. *)
Theorem contains_console_trace (w : World) (item : jsstring) :
  exists n : nat,
    Z.of_nat n <= Z.max 0 (numHashes (this w)) /\
    console (snd (contains item w)) =
    console w ++
    List.map (fun seed => fst (_hash item seed w)) (seeds (Z.of_nat n)) /\
    (fst (contains item w) = true ->
     Z.of_nat n = Z.max 0 (numHashes (this w))) /\
    (fst (contains item w) = false ->
     0 < Z.of_nat n /\
     array_get (bitArray (this w)) (fst (_hash item (Z.of_nat n - 1) w))
     = Some 0).
Proof.
  unfold contains, bind, get_numHashes.
  destruct (contains_loop_console item (Z.to_nat (numHashes (this w))) 0 w)
    as (n & Hn & Hcons & Htrue & Hfalse); [f_equal; lia|].
  exists n. rewrite map_hash_run. unfold seeds. rewrite Nat2Z.id.
  split; [lia|]. split; [exact Hcons|]. split.
  - intros Ht. rewrite (Htrue Ht). lia.
  - intros Hf. destruct (Hfalse Hf) as (m & -> & Hm). split; [lia|].
    rewrite _hash_run. cbn [fst].
    now replace (Z.of_nat (S m) - 1) with (0 + Z.of_nat m) by lia.
Qed.

Lemma contains_console_trace_witness :
  let w := run [Add (js "apple")]
             (fresh {| size := 100; numHashes := 3;
                       bitArray :=
                         Array_fill {| arr_length := 100; props := ∅ |} 0 |}
                    []) in
  exists n : nat,
    Z.of_nat n <= Z.max 0 (numHashes (this w)) /\
    console (snd (contains (js "grape") w)) =
    console w ++
    List.map (fun seed => fst (_hash (js "grape") seed w)) (seeds (Z.of_nat n)) /\
    (fst (contains (js "grape") w) = true ->
     Z.of_nat n = Z.max 0 (numHashes (this w))) /\
    (fst (contains (js "grape") w) = false ->
     0 < Z.of_nat n /\
     array_get (bitArray (this w))
       (fst (_hash (js "grape") (Z.of_nat n - 1) w)) = Some 0).
Proof. intros w. exact (contains_console_trace w (js "grape")). Defined.

(** ** More edge cases *)

(** X14. A number of hash functions that is zero or negative, which the
    constructor accepts: after any calls, [add] changes nothing, neither the
    filter nor the console, and [contains] answers [true] and prints
    nothing. *)
Theorem nonpositive_hashes_degenerate
    (sz k : Z) (f0 : BloomFilter) (out : list jsnum) (cs : list call)
    (item : jsstring) :
  k <= 0 -> constructor sz k = Ok f0 ->
  add item (run cs (fresh f0 out)) = (tt, run cs (fresh f0 out)) /\
  contains item (run cs (fresh f0 out)) = (true, run cs (fresh f0 out)) /\
  run cs (fresh f0 out) = fresh f0 out.
Proof.
  intros Hk Hf0. apply constructor_fields in Hf0 as [_ Hnum].
  assert (Hrun : run cs (fresh f0 out) = fresh f0 out).
  { induction cs as [|c cs IH]; [reflexivity|].
    rewrite run_cons.
    replace (snd (exec c (fresh f0 out))) with (fresh f0 out); [exact IH|].
    destruct c as [x|x]; unfold exec, bind, ret.
    - rewrite add_no_hashes by (simpl; lia). reflexivity.
    - rewrite contains_no_hashes by (simpl; lia). reflexivity. }
  rewrite Hrun. repeat split.
  - apply add_no_hashes. simpl. lia.
  - apply contains_no_hashes. simpl. lia.
Qed.

Lemma nonpositive_hashes_degenerate_witness :
  exists f0, constructor 100 (-2) = Ok f0 /\
    add (js "apple") (run [Add (js "banana")] (fresh f0 [])) =
    (tt, run [Add (js "banana")] (fresh f0 [])) /\
    contains (js "apple") (run [Add (js "banana")] (fresh f0 [])) =
    (true, run [Add (js "banana")] (fresh f0 [])) /\
    run [Add (js "banana")] (fresh f0 []) = fresh f0 [].
Proof.
  eexists. split; [reflexivity|].
  apply (nonpositive_hashes_degenerate 100 (-2)); [lia|reflexivity].
Defined.

(** X15. Nothing is ever stored outside the array: on a filter
    constructed with a positive size, after any calls, every key other than
    the indices 0, ..., size - 1 is absent from the bit array (it reads as
    [undefined]). *)
Theorem nothing_outside_array
    (sz k : Z) (f0 : BloomFilter) (out : list jsnum) (cs : list call)
    (key : jsnum) :
  0 < sz -> constructor sz k = Ok f0 ->
  (forall i, 0 <= i < sz -> key <> Num i) ->
  array_get (bitArray (this (run cs (fresh f0 out)))) key = None.
Proof.
  intros Hsz Hf0 Hout.
  destruct (constructor_fields sz k f0 Hf0) as [Hsize Hnum].
  rewrite run_this. cbn [bitArray with_bitArray this fresh].
  rewrite set_bits_other.
  - apply constructor_Ok in Hf0 as [_ ->]. cbn [bitArray].
    rewrite fresh_slots. destruct key as [i|]; [|reflexivity].
    destruct (Z.leb_spec 0 i), (Z.ltb_spec i sz); simpl; try reflexivity.
    now destruct (Hout i ltac:(lia)).
  - intros Hin. apply in_written in Hin as (x & _ & Hin).
    apply in_indices in Hin as (seed & _ & Hkey). rewrite Hsize in Hkey.
    destruct (hash_index_bound sz x seed Hsz) as (i & Hi & Hrange).
    apply (Hout i Hrange). congruence.
Qed.

Lemma nothing_outside_array_witness :
  exists f0, constructor 100 3 = Ok f0 /\
    array_get (bitArray (this (run [Add (js "apple"); Add (js "banana")]
                                 (fresh f0 [])))) NaN = None.
Proof.
  eexists. split; [reflexivity|].
  apply (nothing_outside_array 100 3); [lia|reflexivity|].
  intros i _. discriminate.
Defined.
